(** * GPIO driver for the SiFive Freedom processor (drivers/gpio/gpio_sifive.c)

    Shallow embedding of the register-level behaviour of the driver:
    the volatile register block, the pin configuration routine, pin
    read/write, initialisation and the shared interrupt handler. *)

From Stdlib Require Import ZArith List Bool Btauto Lia.
Import ListNotations.
Open Scope Z_scope.

(** ** Constants *)

(** Modelled from the spec: the flag and access-mode constants of
    include/gpio.h (not part of src/).  The spec treats the flag set as an
    opaque bitmask of direction, polarity, pull mode and interrupt trigger;
    the values below are the header's bit layout. *)
Definition GPIO_ACCESS_BY_PIN : Z := 0.
Definition GPIO_ACCESS_BY_PORT : Z := 1.
Definition GPIO_DIR_IN : Z := 0.
Definition GPIO_DIR_OUT : Z := Z.shiftl 1 0.
Definition GPIO_INT : Z := Z.shiftl 1 1.
Definition GPIO_INT_ACTIVE_LOW : Z := 0.
Definition GPIO_INT_ACTIVE_HIGH : Z := Z.shiftl 1 2.
Definition GPIO_INT_LEVEL : Z := 0.
Definition GPIO_INT_EDGE : Z := Z.shiftl 1 5.
Definition GPIO_INT_DOUBLE_EDGE : Z := Z.shiftl 1 6.
Definition GPIO_POL_POS : Z := 7.
Definition GPIO_POL_INV : Z := Z.shiftl 1 GPIO_POL_POS.
Definition GPIO_PUD_POS : Z := 8.
Definition GPIO_PUD_NORMAL : Z := Z.shiftl 0 GPIO_PUD_POS.
Definition GPIO_PUD_PULL_UP : Z := Z.shiftl 1 GPIO_PUD_POS.
Definition GPIO_PUD_PULL_DOWN : Z := Z.shiftl 2 GPIO_PUD_POS.
Definition GPIO_PUD_MASK : Z := Z.shiftl 3 GPIO_PUD_POS.

(** Modelled from the spec: PIN_COUNT, i.e. SIFIVE_PINMUX_PINS of the SoC
    header (not part of src/): one bit per pin in a 32-bit register. *)
Definition SIFIVE_PINMUX_PINS : Z := 32.

(** Error numbers returned negated by the driver. *)
Inductive errno := EINVAL | ENOTSUP.

(** ** Machine integers *)

(** [unsigned int] / [u32_t] arithmetic on RV32 wraps modulo 2^32. *)
Definition u32 (z : Z) : Z := Z.land z (Z.ones 32).

(** [BIT(n)] is [1UL << n]. *)
Definition BIT (n : Z) : Z := u32 (Z.shiftl 1 n).

(** [flags & m] taken as a C condition. *)
Definition flag (flags m : Z) : bool := negb (Z.land flags m =? 0).

(** ** The register block ([struct gpio_sifive_t]) *)

Record gpio_sifive_t := mk_gpio {
  in_val : Z; in_en : Z; out_en : Z; out_val : Z; pue : Z; ds : Z;
  rise_ie : Z; rise_ip : Z; fall_ie : Z; fall_ip : Z;
  high_ie : Z; high_ip : Z; low_ie : Z; low_ip : Z;
  iof_en : Z; iof_sel : Z; invert : Z }.

(** Names of the seventeen fields, used for volatile accesses. *)
Inductive reg :=
| R_in_val | R_in_en | R_out_en | R_out_val | R_pue | R_ds
| R_rise_ie | R_rise_ip | R_fall_ie | R_fall_ip
| R_high_ie | R_high_ip | R_low_ie | R_low_ip
| R_iof_en | R_iof_sel | R_invert.

Scheme Equality for reg.


Definition rd (g : gpio_sifive_t) (r : reg) : Z :=
  match r with
  | R_in_val => in_val g | R_in_en => in_en g | R_out_en => out_en g
  | R_out_val => out_val g | R_pue => pue g | R_ds => ds g
  | R_rise_ie => rise_ie g | R_rise_ip => rise_ip g
  | R_fall_ie => fall_ie g | R_fall_ip => fall_ip g
  | R_high_ie => high_ie g | R_high_ip => high_ip g
  | R_low_ie => low_ie g | R_low_ip => low_ip g
  | R_iof_en => iof_en g | R_iof_sel => iof_sel g | R_invert => invert g
  end.

(** The register file with field [r] replaced by [v]. *)
Definition upd (g : gpio_sifive_t) (r : reg) (v : Z) : gpio_sifive_t :=
  let f x := if reg_beq r x then v else rd g x in
  mk_gpio (f R_in_val) (f R_in_en) (f R_out_en) (f R_out_val) (f R_pue)
          (f R_ds) (f R_rise_ie) (f R_rise_ip) (f R_fall_ie) (f R_fall_ip)
          (f R_high_ie) (f R_high_ip) (f R_low_ie) (f R_low_ip)
          (f R_iof_en) (f R_iof_sel) (f R_invert).

(** Pending registers are write-1-to-clear. *)
Definition w1c (r : reg) : bool :=
  match r with
  | R_rise_ip | R_fall_ip | R_high_ip | R_low_ip => true
  | _ => false
  end.

(** Modelled from the spec: the hardware effect of a store to the register
    block (the controller is not part of src/).  A store to one of the four
    pending-status registers clears the bits written as 1 and leaves the
    others (write-1-to-clear); a store to any other register replaces it. *)
Definition hw_store (g : gpio_sifive_t) (r : reg) (v : Z) : gpio_sifive_t :=
  if w1c r then upd g r (Z.land (rd g r) (Z.lnot (u32 v))) else upd g r (u32 v).

(** ** A small error/state monad with a log of register stores *)

Inductive outcome (A : Type) := Ok (a : A) | Err (e : errno).
Arguments Ok {A} a.
Arguments Err {A} e.

Definition M (A : Type) : Type :=
  gpio_sifive_t -> outcome A * gpio_sifive_t * list (reg * Z).

Definition ret {A} (a : A) : M A := fun g => (Ok a, g, []).
Definition throw {A} (e : errno) : M A := fun g => (Err e, g, []).
Definition bind {A B} (m : M A) (k : A -> M B) : M B := fun g =>
  match m g with
  | (Ok a, g1, w1) => let '(r, g2, w2) := k a g1 in (r, g2, w1 ++ w2)
  | (Err e, g1, w1) => (Err e, g1, w1)
  end.

Notation "x <- m ;; k" := (bind m (fun x => k))
  (at level 61, m at next level, right associativity).
Notation "m ;; k" := (bind m (fun _ => k))
  (at level 61, right associativity).

(** Volatile load and store. *)
Definition load (r : reg) : M Z := fun g => (Ok (rd g r), g, []).
Definition store (r : reg) (v : Z) : M unit :=
  fun g => (Ok tt, hw_store g r v, [(r, u32 v)]).

(** [gpio->r |= m] and [gpio->r &= ~m]. *)
Definition set_bits (r : reg) (m : Z) : M unit :=
  v <- load r ;; store r (u32 (Z.lor v m)).
Definition clear_bits (r : reg) (m : Z) : M unit :=
  v <- load r ;; store r (u32 (Z.land v (u32 (Z.lnot m)))).

Definition run {A} (m : M A) (g : gpio_sifive_t) := m g.
Definition result {A} (m : M A) (g : gpio_sifive_t) : outcome A :=
  fst (fst (m g)).
Definition final {A} (m : M A) (g : gpio_sifive_t) : gpio_sifive_t :=
  snd (fst (m g)).
Definition stores {A} (m : M A) (g : gpio_sifive_t) : list (reg * Z) :=
  snd (m g).

(** ** gpio_sifive_config *)

Definition gpio_sifive_config (access_op : Z) (pin : Z) (flags : Z) : M unit :=
  if negb (access_op =? GPIO_ACCESS_BY_PIN) then throw ENOTSUP else
  if pin >=? SIFIVE_PINMUX_PINS then throw EINVAL else
  (* Configure gpio direction *)
  (if flag flags GPIO_DIR_OUT then
     clear_bits R_in_en (BIT pin) ;;
     set_bits R_out_en (BIT pin) ;;
     (* Account for polarity only for GPIO_DIR_OUT. *)
     (if flag flags GPIO_POL_INV
      then set_bits R_invert (BIT pin)
      else clear_bits R_invert (BIT pin))
   else
     clear_bits R_out_en (BIT pin) ;;
     set_bits R_in_en (BIT pin) ;;
     (* Polarity inversion is not supported for input gpio *)
     if flag flags GPIO_POL_INV then throw EINVAL else
     (* Only Pull-up can be enabled or disabled. *)
     if Z.land flags GPIO_PUD_MASK =? GPIO_PUD_PULL_DOWN then throw EINVAL else
     if Z.land flags GPIO_PUD_MASK =? GPIO_PUD_PULL_UP
     then set_bits R_pue (BIT pin)
     else clear_bits R_pue (BIT pin)) ;;
  (* Configure interrupt if GPIO_INT is set. *)
  if negb (flag flags GPIO_INT) then ret tt else
  (* Interrupt cannot be set for GPIO_DIR_OUT *)
  if flag flags GPIO_DIR_OUT then throw EINVAL else
  (* Edge or Level triggered ? *)
  (if flag flags GPIO_INT_EDGE then
     clear_bits R_high_ie (BIT pin) ;;
     clear_bits R_low_ie (BIT pin) ;;
     (* Rising Edge, Falling Edge or Double Edge ? *)
     (if flag flags GPIO_INT_DOUBLE_EDGE then
        set_bits R_rise_ie (BIT pin) ;; set_bits R_fall_ie (BIT pin)
      else if flag flags GPIO_INT_ACTIVE_HIGH then
        set_bits R_rise_ie (BIT pin) ;; clear_bits R_fall_ie (BIT pin)
      else
        clear_bits R_rise_ie (BIT pin) ;; set_bits R_fall_ie (BIT pin))
   else
     clear_bits R_rise_ie (BIT pin) ;;
     clear_bits R_fall_ie (BIT pin) ;;
     (* Level High ? *)
     (if flag flags GPIO_INT_ACTIVE_HIGH then
        set_bits R_high_ie (BIT pin) ;; clear_bits R_low_ie (BIT pin)
      else
        clear_bits R_high_ie (BIT pin) ;; set_bits R_low_ie (BIT pin))) ;;
  ret tt.

(** ** gpio_sifive_write *)

Definition gpio_sifive_write (access_op : Z) (pin : Z) (value : Z) : M unit :=
  if negb (access_op =? GPIO_ACCESS_BY_PIN) then throw ENOTSUP else
  if pin >=? SIFIVE_PINMUX_PINS then throw EINVAL else
  (* If pin is configured as input return with error *)
  ie <- load R_in_en ;;
  if flag ie (BIT pin) then throw EINVAL else
  (if negb (value =? 0)
   then set_bits R_out_val (BIT pin)
   else clear_bits R_out_val (BIT pin)) ;;
  ret tt.

(** ** gpio_sifive_read: the value stored through [*value] is the result. *)

Definition gpio_sifive_read (access_op : Z) (pin : Z) : M Z :=
  if negb (access_op =? GPIO_ACCESS_BY_PIN) then throw ENOTSUP else
  if pin >=? SIFIVE_PINMUX_PINS then throw EINVAL else
  oe <- load R_out_en ;;
  if flag oe (BIT pin) then
    ov <- load R_out_val ;; ret (if flag ov (BIT pin) then 1 else 0)
  else
    iv <- load R_in_val ;; ret (if flag iv (BIT pin) then 1 else 0).

(** ** gpio_sifive_init: register reset; the IRQ wiring done by
    [cfg->gpio_cfg_func()] does not touch the register block. *)

Definition gpio_sifive_init : M Z :=
  store R_in_en 0 ;;
  store R_out_en 0 ;;
  store R_pue 0 ;;
  store R_rise_ie 0 ;;
  store R_fall_ie 0 ;;
  store R_high_ie 0 ;;
  store R_low_ie 0 ;;
  store R_invert 0 ;;
  ret 0.

(** ** gpio_sifive_irq_handler *)

(** A registered callback: an identifier for its handler and its pin mask. *)
Record gpio_callback := mk_callback { cb_handler : nat; cb_pin_mask : Z }.

(** Modelled from the spec: [_gpio_fire_callbacks] of gpio_utils.h (not part
    of src/).  Every registered callback whose mask intersects [pins] is
    invoked once with [pins], in list order; the result is the trace of
    invocations.  Handlers do not access the register block. *)
Definition gpio_fire_callbacks (cb : list gpio_callback) (pins : Z)
  : list (nat * Z) :=
  map (fun c => (cb_handler c, pins))
      (filter (fun c => flag (cb_pin_mask c) pins) cb).

(** Modelled from the spec: RISCV_MAX_GENERIC_IRQ of the SoC header (not part
    of src/), the number of generic RISC-V interrupts preceding PLIC lines. *)
Definition RISCV_MAX_GENERIC_IRQ : Z := 11.

(** [plic_irq] is the value of [riscv_plic_get_irq()], [gpio_irq_base] the
    configuration's base.  The [int] mask [1 << k] is taken as its 32-bit
    pattern, which is what the unsigned registers receive. *)
Definition gpio_sifive_irq_handler (cb : list gpio_callback)
    (gpio_irq_base plic_irq : Z) : M (list (nat * Z)) :=
  let pin_mask :=
    u32 (Z.shiftl 1 (plic_irq - (gpio_irq_base - RISCV_MAX_GENERIC_IRQ))) in
  let fired := gpio_fire_callbacks cb pin_mask in
  rip <- load R_rise_ip ;;
  (if flag rip pin_mask then store R_rise_ip pin_mask else
   fip <- load R_fall_ip ;;
   if flag fip pin_mask then store R_fall_ip pin_mask else
   hip <- load R_high_ip ;;
   if flag hip pin_mask then store R_high_ip pin_mask else
   lip <- load R_low_ip ;;
   if flag lip pin_mask then store R_low_ip pin_mask else
   ret tt) ;;
  ret fired.

(** ** gpio_sifive_enable_callback / gpio_sifive_disable_callback *)

(** Modelled from the spec: the mask state of the upstream interrupt
    controller and its [irq_enable] / [irq_disable] (not part of src/),
    which unmask or mask the one line they are given. *)
Definition plic := Z -> bool.
Definition irq_enable (irq : Z) (p : plic) : plic :=
  fun l => if l =? irq then true else p l.
Definition irq_disable (irq : Z) (p : plic) : plic :=
  fun l => if l =? irq then false else p l.

(** [cfg->gpio_irq_base + pin] is computed in [u32_t].  These two entry
    points do not access the register block; their state is the interrupt
    controller's. *)
Definition gpio_sifive_enable_callback (gpio_irq_base access_op pin : Z)
    (p : plic) : outcome unit * plic :=
  if negb (access_op =? GPIO_ACCESS_BY_PIN) then (Err ENOTSUP, p) else
  if pin >=? SIFIVE_PINMUX_PINS then (Err EINVAL, p) else
  (* Enable interrupt for the pin at PLIC level *)
  (Ok tt, irq_enable (u32 (gpio_irq_base + pin)) p).

Definition gpio_sifive_disable_callback (gpio_irq_base access_op pin : Z)
    (p : plic) : outcome unit * plic :=
  if negb (access_op =? GPIO_ACCESS_BY_PIN) then (Err ENOTSUP, p) else
  if pin >=? SIFIVE_PINMUX_PINS then (Err EINVAL, p) else
  (* Disable interrupt for the pin at PLIC level *)
  (Ok tt, irq_disable (u32 (gpio_irq_base + pin)) p).

(** Running [n] invocations of the interrupt handler one after the other. *)
Fixpoint repeat_handler (n : nat) (cb : list gpio_callback)
    (gpio_irq_base plic_irq : Z) (g : gpio_sifive_t) : gpio_sifive_t :=
  match n with
  | O => g
  | S n' => repeat_handler n' cb gpio_irq_base plic_irq
              (final (gpio_sifive_irq_handler cb gpio_irq_base plic_irq) g)
  end.

(** The pending-status registers in the order the handler tests them. *)
Definition pending_regs : list reg := [R_rise_ip; R_fall_ip; R_high_ip; R_low_ip].

(** The first pending register, in that order, whose bit [k] is set. *)
Definition first_pending (g : gpio_sifive_t) (k : Z) : option reg :=
  find (fun r => Z.testbit (rd g r) k) pending_regs.

(** The four pending bits of pin [k] (rise, fall, high, low). *)
Definition pend (g : gpio_sifive_t) (k : Z) : bool * bool * bool * bool :=
  (Z.testbit (rise_ip g) k, Z.testbit (fall_ip g) k,
   Z.testbit (high_ip g) k, Z.testbit (low_ip g) k).

(** The first set bit of a pending vector, in rise, fall, high, low order,
    cleared. *)
Definition clear_first (v : bool * bool * bool * bool) : bool * bool * bool * bool :=
  match v with
  | (a, b, c, d) =>
      if a then (false, b, c, d) else
      if b then (a, false, c, d) else
      if c then (a, b, false, d) else (a, b, c, false)
  end.

Definition zero_gpio : gpio_sifive_t :=
  mk_gpio 0 0 0 0 0 0 0 0 0 0 0 0 0 0 0 0 0.

Example config_pin3_double_edge :
  let g := final (gpio_sifive_config GPIO_ACCESS_BY_PIN 3
             (GPIO_DIR_IN + GPIO_INT + GPIO_INT_EDGE + GPIO_INT_DOUBLE_EDGE))
             zero_gpio in
  (in_en g, out_en g, rise_ie g, fall_ie g, high_ie g, low_ie g)
  = (8, 0, 8, 8, 0, 0).
Proof. vm_compute. reflexivity. Qed.

(** A register block with several bits set, used for concrete runs. *)
Definition sample_gpio : gpio_sifive_t :=
  mk_gpio 5 255 0 3 0 0 0 10 0 8 0 0 0 8 0 0 0.

(** ** Bit-level lemmas *)

Lemma testbit_u32 x j : 0 <= j -> Z.testbit (u32 x) j = (j <? 32) && Z.testbit x j.
Proof.
  intros Hj. unfold u32. rewrite Z.land_spec, Z.testbit_ones_nonneg by lia.
  apply andb_comm.
Qed.

Lemma testbit_BIT p j :
  0 <= p < 32 -> 0 <= j -> Z.testbit (BIT p) j = (j =? p).
Proof.
  intros Hp Hj. unfold BIT. rewrite testbit_u32, Z.shiftl_1_l by lia.
  rewrite Z.pow2_bits_eqb by lia.
  destruct (Z.eqb_spec p j); destruct (Z.eqb_spec j p); subst;
    try (exfalso; lia); rewrite ?andb_false_r; try reflexivity.
  rewrite andb_true_r. apply Z.ltb_lt; lia.
Qed.

Lemma flag_BIT v p : 0 <= p < 32 -> flag v (BIT p) = Z.testbit v p.
Proof.
  intros Hp. unfold flag.
  destruct (Z.testbit v p) eqn:E.
  - destruct (Z.eqb_spec (Z.land v (BIT p)) 0) as [H0|H0]; [|reflexivity].
    exfalso. assert (Hb := Z.land_spec v (BIT p) p).
    rewrite H0, Z.testbit_0_l, E, testbit_BIT, Z.eqb_refl in Hb by lia.
    discriminate.
  - replace (Z.land v (BIT p)) with 0; [reflexivity|].
    apply Z.bits_inj'. intros j Hj.
    rewrite Z.testbit_0_l, Z.land_spec, testbit_BIT by lia.
    destruct (Z.eqb_spec j p); subst; [rewrite E|]; btauto.
Qed.

Lemma ltb_pin p : 0 <= p < 32 -> (p <? 32) = true.
Proof. intros. apply Z.ltb_lt; lia. Qed.

Lemma eqb_ne j p : j <> p -> (j =? p) = false.
Proof. intros. apply Z.eqb_neq; assumption. Qed.

Lemma geb_pin p : p < 32 -> (p >=? SIFIVE_PINMUX_PINS) = false.
Proof.
  intros. unfold SIFIVE_PINMUX_PINS. destruct (Z.geb_spec p 32); [lia|reflexivity].
Qed.

Lemma geb_out p : 32 <= p -> (p >=? SIFIVE_PINMUX_PINS) = true.
Proof.
  intros. unfold SIFIVE_PINMUX_PINS. destruct (Z.geb_spec p 32); [reflexivity|lia].
Qed.

Lemma rd_upd g r v x : rd (upd g r v) x = if reg_beq r x then v else rd g x.
Proof. destruct r, x; reflexivity. Qed.

Lemma reg_beq_same r : reg_beq r r = true.
Proof. destruct r; reflexivity. Qed.

Lemma reg_beq_false r x : r <> x -> reg_beq r x = false.
Proof. intros H. destruct r, x; try reflexivity; congruence. Qed.

(** Reduce the monadic plumbing, keeping the bit operations folded. *)
Ltac cbn_regs :=
  cbn -[BIT u32 flag Z.land Z.lor Z.lnot Z.testbit Z.ones Z.eqb Z.ltb Z.geb]
    in *.

(** Unfold a run of the driver into its explicit final register file. *)
Ltac run_driver :=
  unfold result, final, stores in *;
  repeat first
    [ match goal with
      | H : context [?x =? ?x] |- _ => rewrite Z.eqb_refl in H
      | |- context [?x =? ?x] => rewrite Z.eqb_refl
      | |- context [if ?b then _ else _] => destruct b eqn:?
      | H : context [if ?b then _ else _] |- _ => destruct b eqn:?
      end
    | progress cbn_regs ].

(** Turn [flags & BIT(pin)] tests in the context into bit tests. *)
Ltac flags_to_bits :=
  repeat match goal with
    | H : context [flag ?v (BIT ?p)] |- _ => rewrite (flag_BIT v p) in H by lia
    | |- context [flag ?v (BIT ?p)] => rewrite (flag_BIT v p) by lia
    end.

(** Evaluate the test of a bit after a sequence of masked updates. *)
Ltac bits :=
  repeat (rewrite ?testbit_u32, ?Z.lor_spec, ?Z.land_spec, ?Z.lnot_spec,
            ?testbit_BIT by lia);
  repeat match goal with
    | H : 0 <= ?p < 32 |- context [?p <? 32] => rewrite (ltb_pin p H)
    | |- context [?p =? ?p] => rewrite Z.eqb_refl
    | H : ?j <> ?p |- context [?j =? ?p] => rewrite (eqb_ne j p H)
    end;
  try btauto.

(** The same evaluation in the hypotheses, then look for a contradiction. *)
Ltac bits_hyps :=
  repeat (rewrite ?testbit_u32, ?Z.lor_spec, ?Z.land_spec, ?Z.lnot_spec,
            ?testbit_BIT in * by lia);
  repeat match goal with
    | H : 0 <= ?p < 32, H' : context [?p <? 32] |- _ => rewrite (ltb_pin p H) in H'
    | H' : context [?p =? ?p] |- _ => rewrite Z.eqb_refl in H'
    end;
  cbn [andb orb negb] in *;
  rewrite ?andb_true_r, ?andb_false_r, ?orb_true_r, ?orb_false_r in *;
  try discriminate; try congruence.

(** Close a propositional goal over evaluated bits. *)
Ltac bool_finish :=
  repeat match goal with
    | |- context [Z.testbit ?x ?y] => destruct (Z.testbit x y)
    end;
  cbn [andb orb negb]; intuition (first [reflexivity | discriminate | congruence]).

(** ** Pin configuration *)

(** C3: after a successful configuration of a valid pin, output direction
    leaves input-enable cleared and output-enable set, input direction leaves
    output-enable cleared and input-enable set, and the two bits are never
    both set. *)
Theorem config_direction_exclusive access_op pin flags g :
  0 <= pin < 32 ->
  result (gpio_sifive_config access_op pin flags) g = Ok tt ->
  let g' := final (gpio_sifive_config access_op pin flags) g in
  (flag flags GPIO_DIR_OUT = true ->
     Z.testbit (in_en g') pin = false /\ Z.testbit (out_en g') pin = true) /\
  (flag flags GPIO_DIR_OUT = false ->
     Z.testbit (out_en g') pin = false /\ Z.testbit (in_en g') pin = true) /\
  ~ (Z.testbit (in_en g') pin = true /\ Z.testbit (out_en g') pin = true).
Proof.
  intros Hp Hok g'. subst g'. unfold gpio_sifive_config in *.
  run_driver; try discriminate; bits; bool_finish.
Qed.

(** C4: a successful interrupt configuration of a valid pin programs the
    trigger type.  Edge: both level enables cleared, then rise and fall for
    double edge, rise only for active high, fall only otherwise.  Level: both
    edge enables cleared, then high only for active high, low only otherwise.
    Hence edge and level enables are never armed together for the pin. *)
Theorem config_interrupt_trigger access_op pin flags g :
  0 <= pin < 32 ->
  flag flags GPIO_INT = true ->
  result (gpio_sifive_config access_op pin flags) g = Ok tt ->
  let g' := final (gpio_sifive_config access_op pin flags) g in
  let b f := Z.testbit (f g') pin in
  (flag flags GPIO_INT_EDGE = true ->
     b high_ie = false /\ b low_ie = false /\
     (flag flags GPIO_INT_DOUBLE_EDGE = true ->
        b rise_ie = true /\ b fall_ie = true) /\
     (flag flags GPIO_INT_DOUBLE_EDGE = false ->
      flag flags GPIO_INT_ACTIVE_HIGH = true ->
        b rise_ie = true /\ b fall_ie = false) /\
     (flag flags GPIO_INT_DOUBLE_EDGE = false ->
      flag flags GPIO_INT_ACTIVE_HIGH = false ->
        b rise_ie = false /\ b fall_ie = true)) /\
  (flag flags GPIO_INT_EDGE = false ->
     b rise_ie = false /\ b fall_ie = false /\
     (flag flags GPIO_INT_ACTIVE_HIGH = true ->
        b high_ie = true /\ b low_ie = false) /\
     (flag flags GPIO_INT_ACTIVE_HIGH = false ->
        b high_ie = false /\ b low_ie = true)) /\
  ~ ((b rise_ie || b fall_ie) = true /\ (b high_ie || b low_ie) = true).
Proof.
  intros Hp Hint Hok g' b. subst g' b. unfold gpio_sifive_config in *.
  rewrite Hint in *.
  run_driver; try discriminate; bits; bool_finish.
Qed.

(** C7: for a valid pin and any flags, configuration changes no bit of any
    register at another pin index, whether it succeeds or fails. *)
Theorem config_frame access_op pin flags g r j :
  0 <= pin < 32 -> 0 <= j < 32 -> j <> pin ->
  Z.testbit (rd (final (gpio_sifive_config access_op pin flags) g) r) j
  = Z.testbit (rd g r) j.
Proof.
  intros Hp Hj Hne. unfold gpio_sifive_config.
  destruct r; run_driver; bits.
Qed.

(** C1 (counterexample): configuring pin 0 of a cleared register block as an
    input with polarity inversion fails with -EINVAL, yet the input-enable
    bit of pin 0 has already been set by the call. *)
Lemma config_error_partial_apply :
  let flags := GPIO_DIR_IN + GPIO_POL_INV in
  result (gpio_sifive_config GPIO_ACCESS_BY_PIN 0 flags) zero_gpio = Err EINVAL /\
  Z.testbit (in_en (final (gpio_sifive_config GPIO_ACCESS_BY_PIN 0 flags)
                      zero_gpio)) 0 = true /\
  Z.testbit (in_en zero_gpio) 0 = false.
Proof. vm_compute. repeat split. Qed.

(** A failing configuration writes no register besides in_en, out_en and
    invert. *)
Lemma config_error_untouched access_op pin flags g e r :
  result (gpio_sifive_config access_op pin flags) g = Err e ->
  r <> R_in_en -> r <> R_out_en -> r <> R_invert ->
  rd (final (gpio_sifive_config access_op pin flags) g) r = rd g r.
Proof.
  intros Herr H1 H2 H3. unfold gpio_sifive_config in *.
  destruct r; try congruence; run_driver; solve [discriminate | reflexivity].
Qed.

(** C1 (amended): on a valid pin in per-pin mode, polarity inversion on an
    input, pull-down on an input and an interrupt together with output
    direction each make the call fail with -EINVAL; an output configuration
    without an interrupt succeeds whatever its pull flags (pull-down is not
    checked for outputs).  A failure for an unsupported access mode or an
    out-of-range pin leaves every register unchanged.  A failure for an
    invalid flag combination on a valid pin (-EINVAL) happens after the
    direction has been programmed: for an input the pin's output-enable bit
    is cleared and its input-enable bit set; for an output with an interrupt
    its input-enable bit is cleared, its output-enable bit set and its invert
    bit follows the polarity flag.  Every register other than in_en, out_en
    and invert (pull-up, the interrupt enables, ...) is unchanged. *)
Theorem config_error_effects access_op pin flags g :
  0 <= pin ->
  let m := gpio_sifive_config access_op pin flags in
  let g' := final m g in
  (access_op = GPIO_ACCESS_BY_PIN -> pin < 32 ->
     (flag flags GPIO_DIR_OUT = false -> flag flags GPIO_POL_INV = true ->
        result m g = Err EINVAL) /\
     (flag flags GPIO_DIR_OUT = false ->
      Z.land flags GPIO_PUD_MASK = GPIO_PUD_PULL_DOWN ->
        result m g = Err EINVAL) /\
     (flag flags GPIO_DIR_OUT = true -> flag flags GPIO_INT = true ->
        result m g = Err EINVAL) /\
     (flag flags GPIO_DIR_OUT = true -> flag flags GPIO_INT = false ->
        result m g = Ok tt)) /\
  (forall e, result m g = Err e ->
  ((access_op <> GPIO_ACCESS_BY_PIN \/ 32 <= pin) -> g' = g) /\
  (access_op = GPIO_ACCESS_BY_PIN -> pin < 32 ->
     e = EINVAL /\
     (forall r, r <> R_in_en -> r <> R_out_en -> r <> R_invert ->
        rd g' r = rd g r) /\
     (flag flags GPIO_DIR_OUT = false ->
        Z.testbit (out_en g') pin = false /\
        Z.testbit (in_en g') pin = true /\ invert g' = invert g) /\
     (flag flags GPIO_DIR_OUT = true ->
        Z.testbit (in_en g') pin = false /\
        Z.testbit (out_en g') pin = true /\
        Z.testbit (invert g') pin = flag flags GPIO_POL_INV))).
Proof.
  intros Hp m g'. subst m g'. split.
  - intros Ha Hp32. subst access_op.
    unfold gpio_sifive_config. rewrite Z.eqb_refl, (geb_pin pin Hp32).
    split; [|split; [|split]].
    + intros Hin Hpol. rewrite Hin, Hpol. run_driver; try discriminate; reflexivity.
    + intros Hin Hpd. rewrite Hin.
      destruct (flag flags GPIO_POL_INV); [run_driver; try discriminate; reflexivity|].
      rewrite (proj2 (Z.eqb_eq _ _) Hpd). run_driver; try discriminate; reflexivity.
    + intros Hout Hint. rewrite Hout, Hint. run_driver; try discriminate; reflexivity.
    + intros Hout Hint. rewrite Hout, Hint. run_driver; try discriminate; reflexivity.
  - intros e Herr. split.
    + intros Hbad. unfold gpio_sifive_config in *.
      destruct (Z.eqb_spec access_op GPIO_ACCESS_BY_PIN) as [Ha|Ha];
        [|reflexivity].
      destruct (Z.geb_spec pin SIFIVE_PINMUX_PINS) as [Hpin|Hpin];
        [reflexivity|].
      exfalso. unfold SIFIVE_PINMUX_PINS in Hpin. lia.
    + intros Ha Hp32. subst access_op. assert (Hp' : 0 <= pin < 32) by lia.
      assert (Hfr := fun r => config_error_untouched _ _ _ _ _ r Herr).
      assert (Hge : (pin >=? SIFIVE_PINMUX_PINS) = false).
      { destruct (Z.geb_spec pin SIFIVE_PINMUX_PINS); unfold SIFIVE_PINMUX_PINS in *;
          [lia | reflexivity]. }
      split; [|split; [exact Hfr|]]; clear Hfr;
      unfold gpio_sifive_config in *; rewrite Hge in *;
      run_driver; try discriminate;
        try (match goal with H : Err _ = Err _ |- _ => injection H; intros; subst end);
        try reflexivity; bits; bool_finish.
Qed.

(** ** Pin write and read *)

(** C5: in per-pin mode, write fails with -EINVAL (out of range) for
    [pin >= 32] without touching any register; on a valid pin whose
    input-enable bit is set it fails with -EINVAL (the spec's InvalidState)
    and leaves out_val unchanged; otherwise it sets the pin's out_val bit for
    a nonzero value, clears it for zero, and changes no other bit of out_val
    and no other register. *)
Theorem write_contract pin value g :
  let m := gpio_sifive_write GPIO_ACCESS_BY_PIN pin value in
  (32 <= pin -> result m g = Err EINVAL /\ final m g = g) /\
  (0 <= pin < 32 -> Z.testbit (in_en g) pin = true ->
     result m g = Err EINVAL /\ out_val (final m g) = out_val g) /\
  (0 <= pin < 32 -> Z.testbit (in_en g) pin = false ->
     result m g = Ok tt /\
     Z.testbit (out_val (final m g)) pin = negb (value =? 0) /\
     (forall j, 0 <= j < 32 -> j <> pin ->
        Z.testbit (out_val (final m g)) j = Z.testbit (out_val g) j) /\
     (forall r, r <> R_out_val -> rd (final m g) r = rd g r)).
Proof.
  intros m. subst m. split; [|split].
  - intros Hp. unfold gpio_sifive_write. rewrite (geb_out pin Hp).
    split; reflexivity.
  - intros Hp Hin. unfold gpio_sifive_write. rewrite (geb_pin pin) by lia.
    run_driver; flags_to_bits; try congruence; split; reflexivity.
  - intros Hp Hin. split; [|split; [|split]].
    + unfold gpio_sifive_write. rewrite (geb_pin pin) by lia.
      run_driver; flags_to_bits; congruence.
    + unfold gpio_sifive_write. rewrite (geb_pin pin) by lia.
      run_driver; flags_to_bits; try congruence; bits;
        match goal with H : (value =? 0) = _ |- _ => rewrite H end; btauto.
    + intros j Hj Hne. unfold gpio_sifive_write. rewrite (geb_pin pin) by lia.
      run_driver; flags_to_bits; try congruence; bits.
    + intros r Hr. unfold gpio_sifive_write. rewrite (geb_pin pin) by lia.
      destruct r; try congruence; run_driver; reflexivity.
Qed.

(** C9: in per-pin mode on a valid pin, write fails exactly when the pin's
    input-enable bit is set.  In particular on a pin with both input-enable
    and output-enable clear (never configured) it succeeds and sets or clears
    the out_val bit. *)
Theorem write_fails_iff_input_enable pin value g :
  0 <= pin < 32 ->
  let m := gpio_sifive_write GPIO_ACCESS_BY_PIN pin value in
  ((exists e, result m g = Err e) <-> Z.testbit (in_en g) pin = true) /\
  (Z.testbit (in_en g) pin = false -> Z.testbit (out_en g) pin = false ->
     result m g = Ok tt /\
     Z.testbit (out_val (final m g)) pin = negb (value =? 0)).
Proof.
  intros Hp m. subst m. unfold gpio_sifive_write. rewrite (geb_pin pin) by lia.
  split; [split|].
  - intros [e He]. destruct (Z.testbit (in_en g) pin) eqn:Hin; [reflexivity|].
    exfalso. run_driver; flags_to_bits; congruence.
  - intros Hin. exists EINVAL. run_driver; flags_to_bits; congruence.
  - intros Hin Hout. run_driver; flags_to_bits; try congruence;
      (split; [reflexivity|]); bits;
      match goal with H : (value =? 0) = _ |- _ => rewrite H end; btauto.
Qed.

(** C6: in per-pin mode, read fails with -EINVAL for [pin >= 32]; on a valid
    pin it returns the out_val bit when the pin's output-enable bit is set and
    the in_val bit otherwise, for every register contents; it performs no
    store and leaves the register block unchanged. *)
Theorem read_contract pin g :
  let m := gpio_sifive_read GPIO_ACCESS_BY_PIN pin in
  (32 <= pin -> result m g = Err EINVAL) /\
  (0 <= pin < 32 ->
     result m g =
       Ok (Z.b2z (if Z.testbit (out_en g) pin
                  then Z.testbit (out_val g) pin
                  else Z.testbit (in_val g) pin))) /\
  final m g = g /\ stores m g = [].
Proof.
  intros m. subst m. split; [|split; [|split]].
  - intros Hp. unfold gpio_sifive_read. rewrite (geb_out pin Hp). reflexivity.
  - intros Hp. unfold gpio_sifive_read. rewrite (geb_pin pin) by lia.
    run_driver; try discriminate; flags_to_bits;
      repeat match goal with
        | H : Z.testbit ?a ?b = _ |- context [Z.testbit ?a ?b] => rewrite H
        end;
      first [reflexivity | congruence].
  - unfold gpio_sifive_read. run_driver; reflexivity.
  - unfold gpio_sifive_read. run_driver; reflexivity.
Qed.

(** ** Initialisation *)

(** C8: initialisation succeeds and zeroes input-enable, output-enable,
    pull-up, the four interrupt enables and invert, so that no pin has a
    direction, a pull-up, an inversion or an interrupt class enabled. *)
Theorem init_zeroes g :
  let g' := final gpio_sifive_init g in
  result gpio_sifive_init g = Ok 0 /\
  in_en g' = 0 /\ out_en g' = 0 /\ pue g' = 0 /\
  rise_ie g' = 0 /\ fall_ie g' = 0 /\ high_ie g' = 0 /\ low_ie g' = 0 /\
  invert g' = 0 /\
  (forall j, Z.testbit (in_en g') j = false /\ Z.testbit (out_en g') j = false /\
     Z.testbit (pue g') j = false /\ Z.testbit (invert g') j = false /\
     Z.testbit (rise_ie g') j = false /\ Z.testbit (fall_ie g') j = false /\
     Z.testbit (high_ie g') j = false /\ Z.testbit (low_ie g') j = false).
Proof.
  intros g'. subst g'. unfold gpio_sifive_init. cbn.
  repeat split; intros; apply Z.testbit_0_l.
Qed.

(** ** Interrupt dispatch *)

(** One run of the handler for the line of pin [k]: the callbacks matching
    [BIT k] are invoked, and a single store of [BIT k] goes to the first
    pending register with bit [k] set, if any. *)
Lemma irq_handler_run cb base irq k g :
  0 <= k < 32 -> irq - (base - RISCV_MAX_GENERIC_IRQ) = k ->
  run (gpio_sifive_irq_handler cb base irq) g =
  match first_pending g k with
  | Some r => (Ok (gpio_fire_callbacks cb (BIT k)), hw_store g r (BIT k),
               [(r, u32 (BIT k))])
  | None => (Ok (gpio_fire_callbacks cb (BIT k)), g, [])
  end.
Proof.
  intros Hk Hirq. unfold run, gpio_sifive_irq_handler, first_pending.
  rewrite Hirq. change (u32 (Z.shiftl 1 k)) with (BIT k).
  repeat (cbv beta iota zeta delta [bind load store ret rd find pending_regs];
          match goal with
          | |- context [flag ?v (BIT k)] =>
              let E := fresh "E" in
              destruct (flag v (BIT k)) eqn:E;
              rewrite (flag_BIT v k Hk) in E; rewrite E
          end).
  all: reflexivity.
Qed.

Lemma u32_BIT k : 0 <= k < 32 -> u32 (BIT k) = BIT k.
Proof.
  intros Hk. apply Z.bits_inj'. intros j Hj.
  rewrite testbit_u32, testbit_BIT by lia.
  destruct (Z.eqb_spec j k); [subst; rewrite ltb_pin by lia|]; btauto.
Qed.

Lemma first_pending_some g k r :
  first_pending g k = Some r ->
  w1c r = true /\ Z.testbit (rd g r) k = true.
Proof.
  unfold first_pending, pending_regs. cbn.
  destruct (Z.testbit (rise_ip g) k) eqn:E1;
    [intros H; injection H; intros; subst; split; [reflexivity|exact E1]|].
  destruct (Z.testbit (fall_ip g) k) eqn:E2;
    [intros H; injection H; intros; subst; split; [reflexivity|exact E2]|].
  destruct (Z.testbit (high_ip g) k) eqn:E3;
    [intros H; injection H; intros; subst; split; [reflexivity|exact E3]|].
  destruct (Z.testbit (low_ip g) k) eqn:E4;
    [intros H; injection H; intros; subst; split; [reflexivity|exact E4]|].
  discriminate.
Qed.

(** C2: for a valid pin, the handler checks rise, fall, high and low pending
    in that order, stores the pin's single-bit mask to the first register
    whose pin bit is set and to no other register.  That register loses
    exactly the pin's bit (write-1-to-clear) and every other register is
    unchanged; so when the rise-pending bit is set, exactly it is cleared and
    the fall, high and low pending registers are left as they were. *)
Theorem irq_ack_first_pending cb base irq k g :
  0 <= k < 32 -> irq - (base - RISCV_MAX_GENERIC_IRQ) = k ->
  let m := gpio_sifive_irq_handler cb base irq in
  stores m g = match first_pending g k with
               | Some r => [(r, BIT k)]
               | None => []
               end /\
  (forall r, first_pending g k = Some r ->
     Z.testbit (rd (final m g) r) k = false /\
     (forall j, 0 <= j -> j <> k ->
        Z.testbit (rd (final m g) r) j = Z.testbit (rd g r) j) /\
     (forall r', r' <> r -> rd (final m g) r' = rd g r')) /\
  (Z.testbit (rise_ip g) k = true ->
     Z.testbit (rise_ip (final m g)) k = false /\
     (forall j, 0 <= j -> j <> k ->
        Z.testbit (rise_ip (final m g)) j = Z.testbit (rise_ip g) j) /\
     fall_ip (final m g) = fall_ip g /\ high_ip (final m g) = high_ip g /\
     low_ip (final m g) = low_ip g).
Proof.
  intros Hk Hirq m. subst m. unfold stores, final.
  change (gpio_sifive_irq_handler cb base irq g)
    with (run (gpio_sifive_irq_handler cb base irq) g).
  rewrite (irq_handler_run cb base irq k g Hk Hirq).
  assert (Hack : forall r, first_pending g k = Some r ->
     Z.testbit (rd (hw_store g r (BIT k)) r) k = false /\
     (forall j, 0 <= j -> j <> k ->
        Z.testbit (rd (hw_store g r (BIT k)) r) j = Z.testbit (rd g r) j) /\
     (forall r', r' <> r -> rd (hw_store g r (BIT k)) r' = rd g r')).
  { intros r Hr. destruct (first_pending_some g k r Hr) as [Hw _].
    unfold hw_store. rewrite Hw, !rd_upd, reg_beq_same, u32_BIT by lia.
    split; [|split].
    - rewrite Z.land_spec, Z.lnot_spec, testbit_BIT, Z.eqb_refl by lia. btauto.
    - intros j Hj Hne.
      rewrite Z.land_spec, Z.lnot_spec, testbit_BIT, (eqb_ne j k Hne) by lia.
      btauto.
    - intros r' Hr'. rewrite rd_upd, reg_beq_false by congruence. reflexivity. }
  split; [|split].
  - destruct (first_pending g k); cbn; rewrite ?u32_BIT by lia; reflexivity.
  - intros r Hr. rewrite Hr. cbn. exact (Hack r Hr).
  - intros Hrise.
    assert (Hr : first_pending g k = Some R_rise_ip).
    { unfold first_pending. cbn. rewrite Hrise. reflexivity. }
    destruct (Hack R_rise_ip Hr) as [H1 [H2 H3]]. rewrite Hr. cbn.
    split; [exact H1|]. split; [exact H2|].
    split; [apply (H3 R_fall_ip)|split; [apply (H3 R_high_ip)|apply (H3 R_low_ip)]];
      discriminate.
Qed.

(** C10: when none of the four pending registers has the pin's bit set, the
    handler still invokes the matching callbacks and returns normally, but
    stores to no register and leaves the register block unchanged. *)
Theorem irq_no_pending_no_store cb base irq k g :
  0 <= k < 32 -> irq - (base - RISCV_MAX_GENERIC_IRQ) = k ->
  Z.testbit (rise_ip g) k = false -> Z.testbit (fall_ip g) k = false ->
  Z.testbit (high_ip g) k = false -> Z.testbit (low_ip g) k = false ->
  run (gpio_sifive_irq_handler cb base irq) g =
    (Ok (gpio_fire_callbacks cb (BIT k)), g, []).
Proof.
  intros Hk Hirq H1 H2 H3 H4.
  rewrite (irq_handler_run cb base irq k g Hk Hirq).
  unfold first_pending. cbn. rewrite H1, H2, H3, H4. reflexivity.
Qed.

(** ** Concrete instances of the theorems *)

Lemma config_direction_exclusive_witness :
  0 <= 3 < 32 /\
  result (gpio_sifive_config GPIO_ACCESS_BY_PIN 3 GPIO_DIR_OUT) sample_gpio = Ok tt /\
  Z.testbit (in_en (final (gpio_sifive_config GPIO_ACCESS_BY_PIN 3 GPIO_DIR_OUT)
                      sample_gpio)) 3 = false.
Proof.
  split; [lia|]. split; [vm_compute; reflexivity|].
  pose proof (config_direction_exclusive GPIO_ACCESS_BY_PIN 3 GPIO_DIR_OUT sample_gpio
                ltac:(lia) ltac:(vm_compute; reflexivity)) as H.
  exact (proj1 (proj1 H eq_refl)).
Defined.

Lemma config_interrupt_trigger_witness :
  let flags := GPIO_DIR_IN + GPIO_INT + GPIO_INT_EDGE + GPIO_INT_DOUBLE_EDGE in
  0 <= 3 < 32 /\ flag flags GPIO_INT = true /\
  result (gpio_sifive_config GPIO_ACCESS_BY_PIN 3 flags) sample_gpio = Ok tt /\
  Z.testbit (rise_ie (final (gpio_sifive_config GPIO_ACCESS_BY_PIN 3 flags)
                        sample_gpio)) 3 = true.
Proof.
  intros flags. split; [lia|]. split; [reflexivity|].
  split; [vm_compute; reflexivity|].
  pose proof (config_interrupt_trigger GPIO_ACCESS_BY_PIN 3 flags sample_gpio
                ltac:(lia) eq_refl ltac:(vm_compute; reflexivity)) as H.
  exact (proj1 (proj1 (proj2 (proj2 (proj1 H eq_refl))) eq_refl)).
Defined.

Lemma config_frame_witness :
  0 <= 3 < 32 /\ 0 <= 5 < 32 /\ 5 <> 3 /\
  Z.testbit (rd (final (gpio_sifive_config GPIO_ACCESS_BY_PIN 3 GPIO_DIR_OUT)
                   sample_gpio) R_in_en) 5
  = Z.testbit (rd sample_gpio R_in_en) 5.
Proof.
  split; [lia|]. split; [lia|]. split; [lia|].
  apply (config_frame GPIO_ACCESS_BY_PIN 3 GPIO_DIR_OUT sample_gpio R_in_en 5); lia.
Defined.

Lemma config_error_effects_witness :
  let flags := GPIO_DIR_IN + GPIO_POL_INV in
  0 <= 0 /\
  result (gpio_sifive_config GPIO_ACCESS_BY_PIN 0 flags) zero_gpio = Err EINVAL /\
  Z.testbit (in_en (final (gpio_sifive_config GPIO_ACCESS_BY_PIN 0 flags)
                      zero_gpio)) 0 = true.
Proof.
  intros flags. split; [lia|].
  pose proof (config_error_effects GPIO_ACCESS_BY_PIN 0 flags zero_gpio
                ltac:(lia)) as H.
  destruct H as [H1 H2].
  split; [exact (proj1 (H1 eq_refl ltac:(lia)) eq_refl eq_refl)|].
  exact (proj1 (proj2 (proj1 (proj2 (proj2
           (proj2 (H2 EINVAL ltac:(vm_compute; reflexivity)) eq_refl ltac:(lia))))
           eq_refl))).
Defined.

Lemma write_contract_witness :
  32 <= 40 /\
  result (gpio_sifive_write GPIO_ACCESS_BY_PIN 40 1) zero_gpio = Err EINVAL.
Proof.
  split; [lia|].
  exact (proj1 (proj1 (write_contract 40 1 zero_gpio) ltac:(lia))).
Defined.

Lemma write_fails_iff_input_enable_witness :
  0 <= 3 < 32 /\
  result (gpio_sifive_write GPIO_ACCESS_BY_PIN 3 1) zero_gpio = Ok tt.
Proof.
  split; [lia|].
  exact (proj1 (proj2 (write_fails_iff_input_enable 3 1 zero_gpio ltac:(lia))
                  eq_refl eq_refl)).
Defined.

Lemma read_contract_witness :
  0 <= 0 < 32 /\
  result (gpio_sifive_read GPIO_ACCESS_BY_PIN 0) sample_gpio = Ok 1.
Proof.
  split; [lia|].
  exact (proj1 (proj2 (read_contract 0 sample_gpio)) ltac:(lia)).
Defined.

Lemma irq_ack_first_pending_witness :
  0 <= 3 < 32 /\ 8 - (16 - RISCV_MAX_GENERIC_IRQ) = 3 /\
  stores (gpio_sifive_irq_handler [] 16 8) sample_gpio = [(R_rise_ip, BIT 3)].
Proof.
  split; [lia|]. split; [reflexivity|].
  exact (proj1 (irq_ack_first_pending [] 16 8 3 sample_gpio ltac:(lia) eq_refl)).
Defined.

Lemma irq_no_pending_no_store_witness :
  0 <= 3 < 32 /\ 8 - (16 - RISCV_MAX_GENERIC_IRQ) = 3 /\
  run (gpio_sifive_irq_handler [mk_callback 7 8] 16 8) zero_gpio =
    (Ok (gpio_fire_callbacks [mk_callback 7 8] (BIT 3)), zero_gpio, []).
Proof.
  split; [lia|]. split; [reflexivity|].
  exact (irq_no_pending_no_store [mk_callback 7 8] 16 8 3 zero_gpio
           ltac:(lia) eq_refl eq_refl eq_refl eq_refl eq_refl).
Defined.

(** ** Further properties of the driver *)

(** Pull-up is programmed only on the input path: an output configuration
    leaves pue untouched; an input configuration that succeeds sets the pin's
    pue bit exactly when the pull field is PULL_UP; a pull-down request on an
    input is rejected with -EINVAL and leaves pue untouched. *)
Theorem config_pull_up pin flags g :
  0 <= pin < 32 ->
  let m := gpio_sifive_config GPIO_ACCESS_BY_PIN pin flags in
  (flag flags GPIO_DIR_OUT = true -> pue (final m g) = pue g) /\
  (flag flags GPIO_DIR_OUT = false -> result m g = Ok tt ->
     Z.testbit (pue (final m g)) pin =
       (Z.land flags GPIO_PUD_MASK =? GPIO_PUD_PULL_UP)) /\
  (flag flags GPIO_DIR_OUT = false ->
   Z.land flags GPIO_PUD_MASK = GPIO_PUD_PULL_DOWN ->
     result m g = Err EINVAL /\ pue (final m g) = pue g).
Proof.
  intros Hp m. subst m. split; [|split].
  - intros Hout. unfold gpio_sifive_config. rewrite Hout, geb_pin by lia.
    run_driver; reflexivity.
  - intros Hin Hok. unfold gpio_sifive_config in *.
    rewrite Hin, geb_pin in * by lia.
    run_driver; try discriminate; bits.
  - intros Hin Hpd. unfold gpio_sifive_config.
    rewrite Hin, geb_pin by lia.
    destruct (flag flags GPIO_POL_INV);
      [run_driver; try discriminate; split; reflexivity|].
    rewrite (proj2 (Z.eqb_eq _ _) Hpd).
    run_driver; try discriminate; split; reflexivity.
Qed.

(** The invert register is written only on the output path: an output
    configuration sets the pin's invert bit exactly when GPIO_POL_INV is
    requested (whatever the rest of the call does), and an input
    configuration never changes invert. *)
Theorem config_invert pin flags g :
  0 <= pin < 32 ->
  let m := gpio_sifive_config GPIO_ACCESS_BY_PIN pin flags in
  (flag flags GPIO_DIR_OUT = true ->
     Z.testbit (invert (final m g)) pin = flag flags GPIO_POL_INV) /\
  (flag flags GPIO_DIR_OUT = false -> invert (final m g) = invert g).
Proof.
  intros Hp m. subst m. split.
  - intros Hout. unfold gpio_sifive_config. rewrite Hout, geb_pin by lia.
    run_driver; try discriminate; bits.
  - intros Hin. unfold gpio_sifive_config. rewrite Hin, geb_pin by lia.
    run_driver; reflexivity.
Qed.

(** A configuration without GPIO_INT leaves the four interrupt-enable
    registers (the trigger type set up earlier) unchanged. *)
Theorem config_no_int_keeps_trigger access_op pin flags g :
  flag flags GPIO_INT = false ->
  let g' := final (gpio_sifive_config access_op pin flags) g in
  rise_ie g' = rise_ie g /\ fall_ie g' = fall_ie g /\
  high_ie g' = high_ie g /\ low_ie g' = low_ie g.
Proof.
  intros Hint g'. subst g'. unfold gpio_sifive_config.
  run_driver; try (rewrite Hint in *; discriminate); repeat split.
Qed.

(** Configuration never writes the input value, output value, drive
    strength, IO-function and pending registers. *)
Theorem config_untouched_regs access_op pin flags g :
  let g' := final (gpio_sifive_config access_op pin flags) g in
  in_val g' = in_val g /\ out_val g' = out_val g /\ ds g' = ds g /\
  iof_en g' = iof_en g /\ iof_sel g' = iof_sel g /\
  rise_ip g' = rise_ip g /\ fall_ip g' = fall_ip g /\
  high_ip g' = high_ip g /\ low_ip g' = low_ip g.
Proof.
  intros g'. subst g'. unfold gpio_sifive_config. run_driver; repeat split.
Qed.

(** Configuring the same pin twice with the same flags has the effect of
    configuring it once: the second call returns the same result and every
    register bit is as after the first call. *)
Theorem config_idempotent access_op pin flags g r j :
  0 <= pin < 32 -> 0 <= j ->
  let C := gpio_sifive_config access_op pin flags in
  result C (final C g) = result C g /\
  Z.testbit (rd (final C (final C g)) r) j = Z.testbit (rd (final C g) r) j.
Proof.
  intros Hp Hj C. subst C. split.
  - unfold gpio_sifive_config. run_driver; reflexivity.
  - unfold gpio_sifive_config. destruct r; run_driver; bits.
Qed.

(** Reading a pin right after a successful write to it: when the pin's
    output-enable bit is set, read returns the value written (1 for any
    nonzero value, 0 for zero); when it is clear (a pin never configured as
    output), read returns the input value bit and not the value written. *)
Theorem write_then_read pin value g :
  0 <= pin < 32 -> Z.testbit (in_en g) pin = false ->
  let g' := final (gpio_sifive_write GPIO_ACCESS_BY_PIN pin value) g in
  (Z.testbit (out_en g) pin = true ->
     result (gpio_sifive_read GPIO_ACCESS_BY_PIN pin) g' =
       Ok (Z.b2z (negb (value =? 0)))) /\
  (Z.testbit (out_en g) pin = false ->
     result (gpio_sifive_read GPIO_ACCESS_BY_PIN pin) g' =
       Ok (Z.b2z (Z.testbit (in_val g) pin))).
Proof.
  intros Hp Hin g'. subst g'.
  split; intros Hout; unfold gpio_sifive_write, gpio_sifive_read;
    rewrite (geb_pin pin) by lia;
    run_driver; try discriminate; flags_to_bits; try congruence;
    bits_hyps; bits;
    repeat match goal with
      | H : Z.testbit ?a ?b = _ |- context [Z.testbit ?a ?b] => rewrite H
      end;
    match goal with H : (value =? 0) = _ |- _ => rewrite H | _ => idtac end;
    first [reflexivity | congruence].
Qed.

(** An output configuration followed by a write and a read of the same pin:
    the write succeeds and the read returns the value written. *)
Theorem config_out_write_read pin flags value g :
  0 <= pin < 32 -> flag flags GPIO_DIR_OUT = true ->
  result (gpio_sifive_config GPIO_ACCESS_BY_PIN pin flags) g = Ok tt ->
  let g1 := final (gpio_sifive_config GPIO_ACCESS_BY_PIN pin flags) g in
  let g2 := final (gpio_sifive_write GPIO_ACCESS_BY_PIN pin value) g1 in
  result (gpio_sifive_write GPIO_ACCESS_BY_PIN pin value) g1 = Ok tt /\
  result (gpio_sifive_read GPIO_ACCESS_BY_PIN pin) g2 =
    Ok (Z.b2z (negb (value =? 0))).
Proof.
  intros Hp Hout Hok g1 g2. subst g1 g2.
  unfold gpio_sifive_config, gpio_sifive_write, gpio_sifive_read in *.
  rewrite Hout, (geb_pin pin) in * by lia.
  run_driver; try discriminate; flags_to_bits; bits_hyps; split; reflexivity.
Qed.

(** Initialisation does not write the input value, output value, drive
    strength, IO-function or pending registers. *)
Theorem init_untouched_regs g :
  let g' := final gpio_sifive_init g in
  in_val g' = in_val g /\ out_val g' = out_val g /\ ds g' = ds g /\
  iof_en g' = iof_en g /\ iof_sel g' = iof_sel g /\
  rise_ip g' = rise_ip g /\ fall_ip g' = fall_ip g /\
  high_ip g' = high_ip g /\ low_ip g' = low_ip g.
Proof. intros g'. subst g'. unfold gpio_sifive_init. cbn. repeat split. Qed.

(** Every per-pin entry point rejects any other access mode with -ENOTSUP
    before doing anything: configure, write and read store nothing and leave
    the register block as it was, and enabling or disabling the pin's
    interrupt leaves the interrupt controller as it was. *)
Theorem access_mode_rejected access_op pin flags value base g p :
  access_op <> GPIO_ACCESS_BY_PIN ->
  run (gpio_sifive_config access_op pin flags) g = (Err ENOTSUP, g, []) /\
  run (gpio_sifive_write access_op pin value) g = (Err ENOTSUP, g, []) /\
  run (gpio_sifive_read access_op pin) g = (Err ENOTSUP, g, []) /\
  gpio_sifive_enable_callback base access_op pin p = (Err ENOTSUP, p) /\
  gpio_sifive_disable_callback base access_op pin p = (Err ENOTSUP, p).
Proof.
  intros Ha. apply Z.eqb_neq in Ha.
  unfold run, gpio_sifive_config, gpio_sifive_write, gpio_sifive_read,
    gpio_sifive_enable_callback, gpio_sifive_disable_callback.
  rewrite Ha. repeat split.
Qed.

(** A write to a valid pin whose input-enable bit is set fails with -EINVAL
    and changes nothing. *)
Lemma write_in_en_set pin value g :
  0 <= pin < 32 -> Z.testbit (in_en g) pin = true ->
  gpio_sifive_write GPIO_ACCESS_BY_PIN pin value g = (Err EINVAL, g, []).
Proof.
  intros Hp Hin. unfold gpio_sifive_write. rewrite Z.eqb_refl, geb_pin by lia.
  cbn_regs. rewrite flag_BIT, Hin by lia. reflexivity.
Qed.

(** A write to a valid pin whose input-enable bit is clear succeeds and
    sets the pin's output value bit to [value <> 0]. *)
Lemma write_in_en_clear pin value g :
  0 <= pin < 32 -> Z.testbit (in_en g) pin = false ->
  let g' := final (gpio_sifive_write GPIO_ACCESS_BY_PIN pin value) g in
  result (gpio_sifive_write GPIO_ACCESS_BY_PIN pin value) g = Ok tt /\
  in_val g' = in_val g /\ in_en g' = in_en g /\ out_en g' = out_en g /\
  Z.testbit (out_val g') pin = negb (value =? 0).
Proof.
  intros Hp Hin g'. subst g'.
  unfold result, final, gpio_sifive_write. rewrite Z.eqb_refl, geb_pin by lia.
  cbn_regs. rewrite flag_BIT, Hin by lia.
  destruct (value =? 0); cbn_regs; repeat split; bits.
Qed.

(** The value read from a valid pin. *)
Lemma read_result pin g :
  0 <= pin < 32 ->
  result (gpio_sifive_read GPIO_ACCESS_BY_PIN pin) g =
  Ok (Z.b2z (if Z.testbit (out_en g) pin then Z.testbit (out_val g) pin
             else Z.testbit (in_val g) pin)).
Proof.
  intros Hp. unfold result, gpio_sifive_read. rewrite Z.eqb_refl, geb_pin by lia.
  cbv beta iota zeta delta [bind load ret rd fst negb].
  rewrite (flag_BIT (out_en g)) by lia.
  destruct (Z.testbit (out_en g) pin); cbv beta iota;
    rewrite flag_BIT by lia; destruct (Z.testbit _ pin); reflexivity.
Qed.

(** The register block after initialisation. *)
Lemma init_final g :
  final gpio_sifive_init g =
  mk_gpio (in_val g) 0 0 (out_val g) 0 (ds g) 0 (rise_ip g) 0 (fall_ip g)
          0 (high_ip g) 0 (low_ip g) (iof_en g) (iof_sel g) 0.
Proof. reflexivity. Qed.

(** An input configuration of a valid pin sets its input-enable bit, also
    when the call then fails on its flags. *)
Lemma config_input_in_en pin flags g :
  0 <= pin < 32 -> flag flags GPIO_DIR_OUT = false ->
  Z.testbit (in_en (final (gpio_sifive_config GPIO_ACCESS_BY_PIN pin flags) g)) pin = true.
Proof.
  intros Hp Hin. unfold gpio_sifive_config. rewrite Hin, geb_pin by lia.
  run_driver; try discriminate; bits.
Qed.

(** After an input configuration of a valid pin, whether it succeeded or was
    rejected for its flags, a write to that pin fails with -EINVAL and leaves
    the output value register unchanged. *)
Theorem config_in_write_fails pin flags value g :
  0 <= pin < 32 -> flag flags GPIO_DIR_OUT = false ->
  let g1 := final (gpio_sifive_config GPIO_ACCESS_BY_PIN pin flags) g in
  result (gpio_sifive_write GPIO_ACCESS_BY_PIN pin value) g1 = Err EINVAL /\
  out_val (final (gpio_sifive_write GPIO_ACCESS_BY_PIN pin value) g1) = out_val g1.
Proof.
  intros Hp Hin g1.
  unfold result, final. rewrite write_in_en_set by (subst g1; auto using config_input_in_en).
  split; reflexivity.
Qed.

(** Right after initialisation every valid pin accepts a write (input-enable
    is clear), and a read returns the pin's input value bit (output-enable is
    clear), even right after such a write. *)
Theorem init_then_write_read pin value g :
  0 <= pin < 32 ->
  let g1 := final gpio_sifive_init g in
  let g2 := final (gpio_sifive_write GPIO_ACCESS_BY_PIN pin value) g1 in
  result (gpio_sifive_write GPIO_ACCESS_BY_PIN pin value) g1 = Ok tt /\
  result (gpio_sifive_read GPIO_ACCESS_BY_PIN pin) g1 =
    Ok (Z.b2z (Z.testbit (in_val g) pin)) /\
  result (gpio_sifive_read GPIO_ACCESS_BY_PIN pin) g2 =
    Ok (Z.b2z (Z.testbit (in_val g) pin)).
Proof.
  intros Hp g1 g2.
  assert (Hin : Z.testbit (in_en g1) pin = false)
    by (subst g1; rewrite init_final; apply Z.testbit_0_l).
  destruct (write_in_en_clear pin value g1 Hp Hin) as (Hok & Hv & _ & Hoe & _).
  fold g2 in Hv, Hoe.
  split; [exact Hok|].
  rewrite !read_result by exact Hp. rewrite Hv, Hoe.
  subst g1. rewrite init_final. cbn [out_en in_val]. rewrite Z.testbit_0_l.
  split; reflexivity.
Qed.

(** Enabling and disabling interrupts of valid pins: with the lines of the
    controller's 32 pins inside the 32-bit range, enabling pin [pin] unmasks
    its line and no line of another pin; disabling it afterwards masks that
    line again and gives every other line back its state from before the
    enable. *)
Theorem enable_disable_callback base pin q p l :
  0 <= base -> base + 32 <= 2 ^ 32 ->
  0 <= pin < 32 -> 0 <= q < 32 -> q <> pin ->
  let line x := u32 (base + x) in
  let e := gpio_sifive_enable_callback base GPIO_ACCESS_BY_PIN pin p in
  let d := gpio_sifive_disable_callback base GPIO_ACCESS_BY_PIN pin (snd e) in
  fst e = Ok tt /\ fst d = Ok tt /\
  snd e (line pin) = true /\ snd e (line q) = p (line q) /\
  snd d (line pin) = false /\ (l <> line pin -> snd d l = p l).
Proof.
  intros Hb Hb32 Hp Hq Hne line e d.
  assert (Hline : forall x, 0 <= x < 32 -> line x = base + x).
  { intros x Hx. subst line. unfold u32. rewrite Z.land_ones by lia.
    apply Z.mod_small. lia. }
  assert (Hqp : (line q =? line pin) = false).
  { apply Z.eqb_neq. rewrite !Hline by lia. lia. }
  subst d e. unfold gpio_sifive_enable_callback, gpio_sifive_disable_callback.
  rewrite Z.eqb_refl, (geb_pin pin) by lia. cbn [negb fst snd].
  unfold irq_enable, irq_disable. fold (line pin).
  rewrite Z.eqb_refl, Hqp.
  repeat split. intros Hl. apply Z.eqb_neq in Hl. rewrite Hl. reflexivity.
Qed.

(** The register block after one run of the handler for the line of pin [k]. *)
Lemma handler_final cb base irq k g :
  0 <= k < 32 -> irq - (base - RISCV_MAX_GENERIC_IRQ) = k ->
  final (gpio_sifive_irq_handler cb base irq) g =
  match first_pending g k with
  | Some r => hw_store g r (BIT k)
  | None => g
  end.
Proof.
  intros Hk Hirq. unfold final.
  change (gpio_sifive_irq_handler cb base irq g)
    with (run (gpio_sifive_irq_handler cb base irq) g).
  rewrite (irq_handler_run cb base irq k g Hk Hirq).
  destruct (first_pending g k); reflexivity.
Qed.

(** Acknowledging pin [k] in a write-1-to-clear register clears only bit [k]. *)
Lemma ack_bits g r k j :
  w1c r = true -> 0 <= k < 32 -> 0 <= j ->
  Z.testbit (rd (hw_store g r (BIT k)) r) j = Z.testbit (rd g r) j && negb (j =? k).
Proof.
  intros Hw Hk Hj. unfold hw_store. rewrite Hw, rd_upd, reg_beq_same, u32_BIT by lia.
  rewrite Z.land_spec, Z.lnot_spec, testbit_BIT by lia. reflexivity.
Qed.

(** ... and leaves every other register as it was. *)
Lemma ack_other g r k x :
  w1c r = true -> r <> x -> rd (hw_store g r (BIT k)) x = rd g x.
Proof.
  intros Hw Hx. unfold hw_store. rewrite Hw, rd_upd, reg_beq_false by exact Hx.
  reflexivity.
Qed.

(** One handler run clears the first set pending bit of pin [k]. *)
Lemma pend_step cb base irq k g :
  0 <= k < 32 -> irq - (base - RISCV_MAX_GENERIC_IRQ) = k ->
  pend (final (gpio_sifive_irq_handler cb base irq) g) k = clear_first (pend g k).
Proof.
  intros Hk Hirq. rewrite (handler_final cb base irq k g Hk Hirq).
  unfold first_pending, pend, pending_regs. cbn [find rd].
  destruct (Z.testbit (rise_ip g) k) eqn:E1;
    [|destruct (Z.testbit (fall_ip g) k) eqn:E2;
      [|destruct (Z.testbit (high_ip g) k) eqn:E3;
        [|destruct (Z.testbit (low_ip g) k) eqn:E4]]];
    cbn [clear_first]; try (rewrite ?E1, ?E2, ?E3, ?E4; reflexivity);
    unfold hw_store; cbn_regs;
    rewrite u32_BIT, Z.land_spec, Z.lnot_spec, testbit_BIT, Z.eqb_refl by lia;
    rewrite ?E1, ?E2, ?E3, ?E4; reflexivity.
Qed.

(** One handler run changes no other pin's bit. *)
Lemma pend_other_step cb base irq k g r j :
  0 <= k < 32 -> irq - (base - RISCV_MAX_GENERIC_IRQ) = k ->
  0 <= j -> j <> k ->
  Z.testbit (rd (final (gpio_sifive_irq_handler cb base irq) g) r) j =
  Z.testbit (rd g r) j.
Proof.
  intros Hk Hirq Hj Hne. rewrite (handler_final cb base irq k g Hk Hirq).
  destruct (first_pending g k) as [r0|] eqn:E; [|reflexivity].
  destruct (first_pending_some g k r0 E) as [Hw _].
  destruct (reg_eq_dec r0 r) as [<-|Hr].
  - rewrite ack_bits, eqb_ne by (assumption || lia). btauto.
  - rewrite ack_other by assumption. reflexivity.
Qed.

(** Four clearing steps clear every bit of a pending vector. *)
Lemma clear_first_iter4 v m :
  Nat.iter m clear_first (Nat.iter 4 clear_first v) = (false, false, false, false).
Proof.
  induction m as [|m IH].
  - destruct v as [[[[] []] []] []]; reflexivity.
  - rewrite Nat.iter_succ, IH. reflexivity.
Qed.

(** Repeated runs of the interrupt handler for the line of pin [k]: each run
    clears the first set pending bit of the pin, in rise, fall, high, low
    order; hence any four runs leave all four pending bits of the pin clear;
    and no run changes any other pin's bit of any register. *)
Theorem irq_handler_drains cb base irq k g n :
  0 <= k < 32 -> irq - (base - RISCV_MAX_GENERIC_IRQ) = k ->
  pend (final (gpio_sifive_irq_handler cb base irq) g) k = clear_first (pend g k) /\
  ((4 <= n)%nat ->
     pend (repeat_handler n cb base irq g) k = (false, false, false, false)) /\
  (forall r j, 0 <= j -> j <> k ->
     Z.testbit (rd (repeat_handler n cb base irq g) r) j = Z.testbit (rd g r) j).
Proof.
  intros Hk Hirq.
  assert (Hiter : forall n g,
    pend (repeat_handler n cb base irq g) k = Nat.iter n clear_first (pend g k)).
  { induction n0 as [|n0 IH]; intros g0; [reflexivity|].
    cbn [repeat_handler]. rewrite IH, (pend_step cb base irq k g0 Hk Hirq).
    rewrite Nat.iter_succ_r. reflexivity. }
  split; [|split].
  - exact (pend_step cb base irq k g Hk Hirq).
  - intros Hn. rewrite Hiter. replace n with ((n - 4) + 4)%nat by lia.
    rewrite Nat.iter_add. apply clear_first_iter4.
  - intros r j Hj Hne. revert g.
    induction n as [|n IH]; intros g0; [reflexivity|].
    cbn [repeat_handler]. rewrite IH.
    exact (pend_other_step cb base irq k g0 r j Hk Hirq Hj Hne).
Qed.

(** Every per-pin entry point rejects a pin index of 32 or more with -EINVAL
    before touching anything: configure, write and read store nothing and
    leave the register block as it was, and enabling or disabling the pin's
    interrupt leaves the interrupt controller as it was. *)
Theorem pin_out_of_range_rejected pin flags value base g p :
  32 <= pin ->
  run (gpio_sifive_config GPIO_ACCESS_BY_PIN pin flags) g = (Err EINVAL, g, []) /\
  run (gpio_sifive_write GPIO_ACCESS_BY_PIN pin value) g = (Err EINVAL, g, []) /\
  run (gpio_sifive_read GPIO_ACCESS_BY_PIN pin) g = (Err EINVAL, g, []) /\
  gpio_sifive_enable_callback base GPIO_ACCESS_BY_PIN pin p = (Err EINVAL, p) /\
  gpio_sifive_disable_callback base GPIO_ACCESS_BY_PIN pin p = (Err EINVAL, p).
Proof.
  intros Hp.
  unfold run, gpio_sifive_config, gpio_sifive_write, gpio_sifive_read,
    gpio_sifive_enable_callback, gpio_sifive_disable_callback.
  rewrite Z.eqb_refl, (geb_out pin Hp). repeat split.
Qed.

(** ** Concrete instances of the further properties *)

Lemma config_pull_up_witness :
  0 <= 3 < 32 /\
  Z.testbit (pue (final (gpio_sifive_config GPIO_ACCESS_BY_PIN 3
                           (GPIO_DIR_IN + GPIO_PUD_PULL_UP)) sample_gpio)) 3 = true.
Proof.
  split; [lia|].
  pose proof (config_pull_up 3 (GPIO_DIR_IN + GPIO_PUD_PULL_UP) sample_gpio
                ltac:(lia)) as H.
  exact (proj1 (proj2 H) eq_refl ltac:(vm_compute; reflexivity)).
Defined.

Lemma config_invert_witness :
  0 <= 3 < 32 /\
  Z.testbit (invert (final (gpio_sifive_config GPIO_ACCESS_BY_PIN 3
                              (GPIO_DIR_OUT + GPIO_POL_INV)) sample_gpio)) 3 = true.
Proof.
  split; [lia|].
  exact (proj1 (config_invert 3 (GPIO_DIR_OUT + GPIO_POL_INV) sample_gpio
                  ltac:(lia)) eq_refl).
Defined.

Lemma config_no_int_keeps_trigger_witness :
  flag GPIO_DIR_IN GPIO_INT = false /\
  fall_ie (final (gpio_sifive_config GPIO_ACCESS_BY_PIN 3 GPIO_DIR_IN)
             sample_gpio) = fall_ie sample_gpio.
Proof.
  split; [reflexivity|].
  exact (proj1 (proj2 (config_no_int_keeps_trigger GPIO_ACCESS_BY_PIN 3
                         GPIO_DIR_IN sample_gpio eq_refl))).
Defined.

Lemma config_idempotent_witness :
  let C := gpio_sifive_config GPIO_ACCESS_BY_PIN 3 (GPIO_DIR_IN + GPIO_POL_INV) in
  0 <= 3 < 32 /\ 0 <= 3 /\
  result C (final C sample_gpio) = result C sample_gpio.
Proof.
  intros C. split; [lia|]. split; [lia|].
  exact (proj1 (config_idempotent GPIO_ACCESS_BY_PIN 3
                  (GPIO_DIR_IN + GPIO_POL_INV) sample_gpio R_in_en 3
                  ltac:(lia) ltac:(lia))).
Defined.

Lemma write_then_read_witness :
  0 <= 3 < 32 /\ Z.testbit (in_en zero_gpio) 3 = false /\
  result (gpio_sifive_read GPIO_ACCESS_BY_PIN 3)
    (final (gpio_sifive_write GPIO_ACCESS_BY_PIN 3 1) zero_gpio) =
    Ok (Z.b2z (Z.testbit (in_val zero_gpio) 3)).
Proof.
  split; [lia|]. split; [reflexivity|].
  exact (proj2 (write_then_read 3 1 zero_gpio ltac:(lia) eq_refl) eq_refl).
Defined.

Lemma config_out_write_read_witness :
  0 <= 3 < 32 /\ flag GPIO_DIR_OUT GPIO_DIR_OUT = true /\
  result (gpio_sifive_config GPIO_ACCESS_BY_PIN 3 GPIO_DIR_OUT) sample_gpio = Ok tt /\
  result (gpio_sifive_read GPIO_ACCESS_BY_PIN 3)
    (final (gpio_sifive_write GPIO_ACCESS_BY_PIN 3 1)
       (final (gpio_sifive_config GPIO_ACCESS_BY_PIN 3 GPIO_DIR_OUT) sample_gpio))
    = Ok (Z.b2z (negb (1 =? 0))).
Proof.
  split; [lia|]. split; [reflexivity|]. split; [vm_compute; reflexivity|].
  exact (proj2 (config_out_write_read 3 GPIO_DIR_OUT 1 sample_gpio ltac:(lia)
                  eq_refl ltac:(vm_compute; reflexivity))).
Defined.

Lemma config_in_write_fails_witness :
  0 <= 3 < 32 /\ flag GPIO_DIR_IN GPIO_DIR_OUT = false /\
  result (gpio_sifive_write GPIO_ACCESS_BY_PIN 3 1)
    (final (gpio_sifive_config GPIO_ACCESS_BY_PIN 3 GPIO_DIR_IN) zero_gpio)
    = Err EINVAL.
Proof.
  split; [lia|]. split; [reflexivity|].
  exact (proj1 (config_in_write_fails 3 GPIO_DIR_IN 1 zero_gpio ltac:(lia) eq_refl)).
Defined.

Lemma init_then_write_read_witness :
  0 <= 3 < 32 /\
  result (gpio_sifive_write GPIO_ACCESS_BY_PIN 3 1)
    (final gpio_sifive_init sample_gpio) = Ok tt.
Proof.
  split; [lia|].
  exact (proj1 (init_then_write_read 3 1 sample_gpio ltac:(lia))).
Defined.

Lemma access_mode_rejected_witness :
  GPIO_ACCESS_BY_PORT <> GPIO_ACCESS_BY_PIN /\
  run (gpio_sifive_config GPIO_ACCESS_BY_PORT 3 GPIO_DIR_OUT) sample_gpio =
    (Err ENOTSUP, sample_gpio, []).
Proof.
  assert (H : GPIO_ACCESS_BY_PORT <> GPIO_ACCESS_BY_PIN)
    by (unfold GPIO_ACCESS_BY_PORT, GPIO_ACCESS_BY_PIN; lia).
  split; [exact H|].
  exact (proj1 (access_mode_rejected GPIO_ACCESS_BY_PORT 3 GPIO_DIR_OUT 1 16
                  sample_gpio (fun _ => false) H)).
Defined.

Lemma enable_disable_callback_witness :
  0 <= 16 /\ 16 + 32 <= 2 ^ 32 /\ 0 <= 3 < 32 /\ 0 <= 5 < 32 /\ 5 <> 3 /\
  snd (gpio_sifive_enable_callback 16 GPIO_ACCESS_BY_PIN 3 (fun _ => false))
      (u32 (16 + 3)) = true.
Proof.
  split; [lia|]. split; [lia|]. split; [lia|]. split; [lia|]. split; [lia|].
  exact (proj1 (proj2 (proj2 (enable_disable_callback 16 3 5 (fun _ => false) 0
                  ltac:(lia) ltac:(lia) ltac:(lia) ltac:(lia) ltac:(lia))))).
Defined.

Lemma irq_handler_drains_witness :
  0 <= 3 < 32 /\ 8 - (16 - RISCV_MAX_GENERIC_IRQ) = 3 /\
  pend (repeat_handler 4 [] 16 8 sample_gpio) 3 = (false, false, false, false).
Proof.
  split; [lia|]. split; [reflexivity|].
  exact (proj1 (proj2 (irq_handler_drains [] 16 8 3 sample_gpio 4
                         ltac:(lia) eq_refl)) ltac:(lia)).
Defined.

Lemma pin_out_of_range_rejected_witness :
  32 <= 40 /\
  gpio_sifive_enable_callback 16 GPIO_ACCESS_BY_PIN 40 (fun _ => false) =
    (Err EINVAL, fun _ => false).
Proof.
  split; [lia|].
  exact (proj1 (proj2 (proj2 (proj2 (pin_out_of_range_rejected 40 GPIO_DIR_OUT 1 16
                  sample_gpio (fun _ => false) ltac:(lia)))))).
Defined.
